(** * Navigation sidebar (src/components/Navigation.jsx)

    A shallow embedding of the navigation component: the static content
    tree [navigation], the array scans that decide which group and link
    are active, the pixel arithmetic of the highlight band and of the
    active-page marker, the element tree that [NavigationGroup] returns,
    and the [useInitialValue] hook that freezes the inputs inside the
    mobile navigation.

    Conventions of the embedding.
    - A JavaScript string is a [string]; [===] on two strings is
      [String.eqb].
    - An array is a [list]; an array index and the result of [findIndex]
      are in [Z], because [findIndex] answers [-1] when nothing matches.
    - A pixel length is a rational number ([Q]); the arithmetic on them is
      exact, and equality of lengths is [Qeq] ([==]).
    - [remToPx] lives in [@/lib/remToPx], outside this file: it is a
      parameter of the development.
    - A hook that keeps a value between renders ([useRef]) becomes
      explicit state, threaded from one render to the next. *)

From Stdlib Require Import String List ZArith QArith Bool Lia Lqa.
Import ListNotations.

Open Scope string_scope.
Open Scope Z_scope.

(** ** Data model *)

(** [{ title, href }]: one entry of a group's [links] array. *)
Record Link := mkLink { title : string; href : string }.

(** [{ title, links }]: one entry of [navigation]. *)
Record Group := mkGroup { gtitle : string; links : list Link }.

(** A section of the current page as the section store holds it; only
    [id], [title] and [tag] are read by this component.  [title] and [tag]
    may be [undefined] (the literal [{ id: '_top' }] has neither). *)
Record Section_ := mkSection
  { id : string; stitle : option string; tag : option string }.

(** The part of the router object that is read: [router.pathname]. *)
Record Router := mkRouter { pathname : string }.

(** ** Array primitives *)

(** [Array.prototype.findIndex]: scan from index [i] upwards, answer the
    index of the first element that satisfies [pred], or [-1]. *)
Fixpoint findIndex_from {A : Type} (pred : A -> bool) (l : list A) (i : Z) : Z :=
  match l with
  | [] => -1
  | x :: rest => if pred x then i else findIndex_from pred rest (i + 1)
  end.

Definition findIndex {A : Type} (pred : A -> bool) (l : list A) : Z :=
  findIndex_from pred l 0.

(** [a[0]] and friends: [undefined] (here [None]) out of range. *)
Definition at_index {A : Type} (l : list A) (i : nat) : option A :=
  nth_error l i.

(** [s === v] where [s] is a string and [v] is a string or [undefined]. *)
Definition strictEq (s : string) (v : option string) : bool :=
  match v with
  | Some t => String.eqb s t
  | None => false
  end.

(** The callback [(link) => link.href === pathname]. *)
Definition hrefIs (p : string) (link : Link) : bool :=
  String.eqb (href link) p.

(** [group.links.findIndex((link) => link.href === pathname)]. *)
Definition activePageIndex (group : Group) (p : string) : Z :=
  findIndex (hrefIs p) (links group).

(** [isActiveGroup] of [NavigationGroup]:
    [group.links.findIndex(...) !== -1]. *)
Definition isActiveGroup (group : Group) (p : string) : bool :=
  negb (activePageIndex group p =? -1).

(** ** The content tree

    [export const navigation]: the groups in display order, each with its
    links in display order. *)
Definition navigation : list Group :=
  [ mkGroup "Javascript"
      [ mkLink "词法环境" "/";
        mkLink "问题摘要" "/quickstart";
        mkLink "Chrome V8引擎" "/sdks";
        mkLink "Chrome extensions" "/authentication";
        mkLink "语法树类型标识" "/pagination";
        mkLink "浏览器运行机制" "/errors" ];
    mkGroup "Babel"
      [ mkLink "Babel乱笔" "/contacts";
        mkLink "Babel疑问" "/conversations";
        mkLink "babel-core" "/messages";
        mkLink "初探AST" "/groups";
        mkLink "babelrc杂谈" "/attachments";
        mkLink "Babel预设Presets" "/attachments" ];
    mkGroup "Wepback"
      [ mkLink "整体配置结构" "/contacts";
        mkLink "简易版打包实现库" "/conversations";
        mkLink "打包后代码片段" "/messages";
        mkLink "webpack问题点" "/groups";
        mkLink "配置文档" "/webpack-config" ];
    mkGroup "Next.js"
      [ mkLink "Next架构图" "/contacts";
        mkLink "Next.js VS Remix" "/conversations";
        mkLink "CSR、SSR、SR、HR" "/messages";
        mkLink "Next.config.js" "/groups";
        mkLink "Next.js 技术文档" "/attachments";
        mkLink "Next.js 源码浅析" "/attachments" ];
    mkGroup "React"
      [ mkLink "React架构图" "/contacts";
        mkLink "精通React提纲" "/conversations";
        mkLink "React 名词解释" "/messages";
        mkLink "调试React代码" "/groups";
        mkLink "React 18新特性" "/attachments" ];
    mkGroup "前端算法实战"
      [ mkLink "前端算法实战" "/contacts";
        mkLink "网站大全" "/contacts" ];
    mkGroup "Shell"
      [ mkLink "常见Shell命令" "/contacts";
        mkLink "Shell特性Login" "/conversations";
        mkLink "Shader" "/messages" ];
    mkGroup "Typescript"
      [ mkLink "TS学习大纲" "/contacts";
        mkLink "TS-JSX" "/conversations";
        mkLink "tsconfig.json" "/messages";
        mkLink "TS代码片段" "/messages";
        mkLink "TS 高级类型使用" "/messages";
        mkLink "declare使用姿势" "/messages";
        mkLink "TS 记录摘要" "/messages" ];
    mkGroup "Vue"
      [ mkLink "混入和插件机制" "/contacts";
        mkLink "依赖收集" "/conversations";
        mkLink "响应原理如何实现" "/messages";
        mkLink "生命周期" "/messages";
        mkLink "生命周期" "/messages" ];
    mkGroup "前端工程化"
      [ mkLink "统一标准：流程、规范统一" "/contacts";
        mkLink "微前端" "/conversations" ];
    mkGroup "网络知识"
      [ mkLink "JWT" "/contacts";
        mkLink "网络七层&协议" "/conversations";
        mkLink "协商&强缓存" "/messages";
        mkLink "HTTPS 详解" "/messages" ];
    mkGroup "性能优化"
      [ mkLink "PerformanceObserver code" "/contacts";
        mkLink "性能杂谈" "/conversations";
        mkLink "2020 - web-vitals" "/conversations";
        mkLink "2018 - Lighthouse" "/messages";
        mkLink "2017 - Audit" "/messages";
        mkLink "2015 - PWA & AMP" "/messages";
        mkLink "RAIL 量化使用者体验" "/messages";
        mkLink "Chrome 性能工具 - Audit" "/messages" ] ].

(** ** Pixel arithmetic of the two overlays *)

Section Layout.
(** [remToPx] of [@/lib/remToPx]. *)
Variable remToPx : Q -> Q.

(** [let itemHeight = remToPx(2)]. *)
Definition itemHeight : Q := remToPx 2.

(** [let offset = remToPx(0.25)]. *)
Definition offset : Q := remToPx (1 # 4).

(** The literal [{ id: '_top' }] put in front of the section list. *)
Definition topSection : Section_ :=
  {| id := "_top"; stitle := None; tag := None |}.

(** [Math.max(0, [{ id: '_top' }, ...sections].findIndex(
      (section) => section.id === visibleSections[0]))]. *)
Definition firstVisibleSectionIndex
    (sections : list Section_) (visibleSections : list string) : Z :=
  Z.max 0
    (findIndex (fun section => strictEq (id section) (at_index visibleSections 0))
               (topSection :: sections)).

(** [height] of [VisibleSectionHighlight]. *)
Definition bandHeight (isPresent : bool) (visibleSections : list string) : Q :=
  if isPresent
  then (inject_Z (Z.max 1 (Z.of_nat (length visibleSections))) * itemHeight)%Q
  else itemHeight.

(** [top] of [VisibleSectionHighlight]. *)
Definition bandTop (group : Group) (p : string)
    (sections : list Section_) (visibleSections : list string) : Q :=
  (inject_Z (activePageIndex group p) * itemHeight +
   inject_Z (firstVisibleSectionIndex sections visibleSections) * itemHeight)%Q.

(** [top] of [ActivePageMarker]. *)
Definition markerTop (group : Group) (p : string) : Q :=
  (offset + inject_Z (activePageIndex group p) * itemHeight)%Q.
End Layout.

(** Modelled from the spec: [remToPx] ([@/lib/remToPx] is not part of the
    sources at hand).  The spec describes it as "a constant conversion from
    relative to absolute units", "derived once from a base text-size unit":
    a length in rem times the root font size in pixels. *)
Definition remToPxAt (rootFontSize : Q) (rem : Q) : Q := (rem * rootFontSize)%Q.

(** ** The rendered element tree

    What the components return, reduced to the props and style values that
    depend on the inputs; constant class names and animation descriptors
    are left out. *)

(** [<NavLink href tag active isAnchorLink>children</NavLink>]. *)
Record NavLinkEl := mkNavLinkEl
  { nl_href : string;
    nl_tag : option string;
    nl_active : bool;
    nl_isAnchorLink : bool;
    nl_children : option string }.

(** The [motion.div] of [VisibleSectionHighlight]: [style={{ height, top }}]. *)
Record BandEl := mkBandEl { band_height : Q; band_top : Q }.

(** The [motion.div] of [ActivePageMarker]: [style={{ top }}]. *)
Record MarkerEl := mkMarkerEl { marker_top : Q }.

(** One [<li key={section.id}>] of the sub-section list. *)
Record SectionItemEl := mkSectionItemEl
  { si_key : string; si_link : NavLinkEl }.

(** One [<motion.li key={link.href}>]: the link, and the [motion.ul] of
    sub-sections when it is rendered. *)
Record LinkItemEl := mkLinkItemEl
  { li_key : string;
    li_link : NavLinkEl;
    li_expansion : option (list SectionItemEl) }.

(** The [<li>] returned by [NavigationGroup]. *)
Record GroupEl := mkGroupEl
  { g_className : option string;
    g_title : string;
    g_highlight : option BandEl;
    g_marker : option MarkerEl;
    g_items : list LinkItemEl }.

(** The [<nav>] returned by [Navigation]: the three [TopLevelNavItem]s
    ([href], text), the groups, and the closing button ([href], text). *)
Record NavigationEl := mkNavigationEl
  { n_topLevel : list (string * string);
    n_groups : list GroupEl;
    n_button : string * string }.

(** ** Hooks *)

(** What the hooks read on one render: [useRouter()], the two selections
    from [useSectionStore], [useIsInsideMobileNavigation()] and
    [useIsPresent()]. *)
Record Env := mkEnv
  { env_router : Router;
    env_sections : list Section_;
    env_visibleSections : list string;
    env_isInsideMobileNavigation : bool;
    env_isPresent : bool }.

(** [useRef(value).current].  The slot is [None] before the first render of
    the component instance; the first render stores [value] in it, and no
    code assigns [.current] afterwards. *)
Definition useRef {A : Type} (slot : option A) (value : A) : A * option A :=
  match slot with
  | Some current => (current, Some current)
  | None => (value, Some value)
  end.

(** [useInitialValue(value, condition)]. *)
Definition useInitialValue {A : Type}
    (slot : option A) (value : A) (condition : bool) : A * option A :=
  let '(initialValue, slot') := useRef slot value in
  ((if condition then initialValue else value), slot').

(** The hook state of one [NavigationGroup] instance: its own ref, and the
    ref of its [VisibleSectionHighlight] child while that child is mounted. *)
Record GroupState := mkGroupState
  { navSlot : option (Router * list Section_);
    bandSlot : option (list Section_ * list string) }.

Definition freshGroup : GroupState := {| navSlot := None; bandSlot := None |}.

(** ** Components *)

Section Components.
Variable remToPx : Q -> Q.

(** [VisibleSectionHighlight({ group, pathname })]: the band, and the
    component's ref after the render. *)
Definition VisibleSectionHighlight
    (slot : option (list Section_ * list string)) (env : Env)
    (group : Group) (p : string)
  : BandEl * option (list Section_ * list string) :=
  let '((sections, visibleSections), slot') :=
    useInitialValue slot
      (env_sections env, env_visibleSections env)
      (env_isInsideMobileNavigation env) in
  ({| band_height := bandHeight remToPx (env_isPresent env) visibleSections;
      band_top := bandTop remToPx group p sections visibleSections |},
   slot').

(** [ActivePageMarker({ group, pathname })]. *)
Definition ActivePageMarker (group : Group) (p : string) : MarkerEl :=
  {| marker_top := markerTop remToPx group p |}.

(** The [<li key={section.id}>] with its anchor [NavLink]:
    [href={`${link.href}#${section.id}`}], [tag={section.tag}],
    [isAnchorLink], children [section.title]; [active] is not passed. *)
Definition sectionItem (link : Link) (section : Section_) : SectionItemEl :=
  {| si_key := id section;
     si_link := {| nl_href := href link ++ "#" ++ id section;
                   nl_tag := tag section;
                   nl_active := false;
                   nl_isAnchorLink := true;
                   nl_children := stitle section |} |}.

(** The body of [group.links.map((link) => ...)]: the sub-section list
    is rendered when
    [link.href === router.pathname && sections.length > 0]. *)
Definition linkItem (p : string) (sections : list Section_) (link : Link)
  : LinkItemEl :=
  {| li_key := href link;
     li_link := {| nl_href := href link;
                   nl_tag := None;
                   nl_active := String.eqb (href link) p;
                   nl_isAnchorLink := false;
                   nl_children := Some (title link) |};
     li_expansion :=
       if String.eqb (href link) p && (0 <? Z.of_nat (length sections))
       then Some (map (sectionItem link) sections)
       else None |}.

(** [NavigationGroup({ group, className })]: the element, and the hook
    state after the render.  A [VisibleSectionHighlight] that is not
    rendered is unmounted, so its ref is dropped. *)
Definition NavigationGroup
    (st : GroupState) (env : Env) (group : Group) (className : option string)
  : GroupEl * GroupState :=
  let isInsideMobileNavigation := env_isInsideMobileNavigation env in
  let '((router, sections), nav') :=
    useInitialValue (navSlot st)
      (env_router env, env_sections env) isInsideMobileNavigation in
  let active := isActiveGroup group (pathname router) in
  let '(highlight, band') :=
    if active
    then let '(el, slot') :=
           VisibleSectionHighlight (bandSlot st) env group (pathname router) in
         (Some el, slot')
    else (None, None) in
  ({| g_className := className;
      g_title := gtitle group;
      g_highlight := highlight;
      g_marker := if active
                  then Some (ActivePageMarker group (pathname router))
                  else None;
      g_items := map (linkItem (pathname router) sections) (links group) |},
   {| navSlot := nav'; bandSlot := band' |}).

(** [navigation.map((group, groupIndex) => <NavigationGroup .../>)] with
    [className={groupIndex === 0 && 'md:mt-0'}]; every instance has its
    own hook state, a fresh one on its first render. *)
Fixpoint renderGroups (groups : list Group) (sts : list GroupState)
    (env : Env) (groupIndex : Z) : list GroupEl * list GroupState :=
  match groups with
  | [] => ([], [])
  | group :: rest =>
      let st := hd freshGroup sts in
      let '(el, st') :=
        NavigationGroup st env group
          (if groupIndex =? 0 then Some "md:mt-0" else None) in
      let '(els, sts') := renderGroups rest (tl sts) env (groupIndex + 1) in
      (el :: els, st' :: sts')
  end.

(** [Navigation(props)] over a content tree. *)
Definition Navigation (tree : list Group) (sts : list GroupState) (env : Env)
  : NavigationEl * list GroupState :=
  let '(els, sts') := renderGroups tree sts env 0 in
  ({| n_topLevel := [("#", "API"); ("#", "Documentation"); ("#", "Support")];
      n_groups := els;
      n_button := ("#", "Sign in") |},
   sts').

(** The successive renders of one mounted [Navigation]: one output per
    environment, the hook state carried from each render to the next. *)
Fixpoint renders (tree : list Group) (sts : list GroupState) (envs : list Env)
  : list NavigationEl :=
  match envs with
  | [] => []
  | env :: later =>
      let '(el, sts') := Navigation tree sts env in
      el :: renders tree sts' later
  end.
End Components.

(** The state of a [Navigation] that has just been mounted. *)
Definition mounted : list GroupState := [].

(** ** Reading the hook state *)

(** The router and the sections that a [NavigationGroup] instance works
    with on a render. *)
Definition seen (st : GroupState) (env : Env) : Router * list Section_ :=
  fst (useInitialValue (navSlot st) (env_router env, env_sections env)
         (env_isInsideMobileNavigation env)).

(** The hook states read the live router: on the first render of every
    instance, or outside the mobile navigation. *)
Definition readsLive (sts : list GroupState) (env : Env) : Prop :=
  Forall (fun st => navSlot st = None) sts \/
  env_isInsideMobileNavigation env = false.

(** The sections and the visible sections that a
    [VisibleSectionHighlight] instance works with on a render. *)
Definition seenByBand (slot : option (list Section_ * list string)) (env : Env)
  : list Section_ * list string :=
  fst (useInitialValue slot (env_sections env, env_visibleSections env)
         (env_isInsideMobileNavigation env)).

(** An environment seen while the mobile navigation that was opened under
    [env0] stays open: still inside it, and the band's presence unchanged.
    The router and the section store are free to differ. *)
Definition stillOpen (env0 env : Env) : Prop :=
  env_isInsideMobileNavigation env = true /\
  env_isPresent env = env_isPresent env0.

(** ** Reading the element tree *)

(** The number of sub-section lists in a rendered group, and in the whole
    [<nav>]. *)
Definition isSome {A : Type} (o : option A) : bool :=
  match o with Some _ => true | None => false end.

Definition groupExpansions (g : GroupEl) : nat :=
  length (filter (fun item => isSome (li_expansion item)) (g_items g)).

Definition expansions (n : NavigationEl) : nat :=
  list_sum (map groupExpansions (n_groups n)).

(** A link of the tree whose [href] is [p]. *)
Definition matchesIn (tree : list Group) (p : string) : Prop :=
  exists group link, In group tree /\ In link (links group) /\ href link = p.

(** [href]s pairwise different inside one [links] array, decided. *)
Fixpoint distinctb (l : list string) : bool :=
  match l with
  | [] => true
  | x :: rest => negb (existsb (String.eqb x) rest) && distinctb rest
  end.

Definition uniqueHrefs (group : Group) : bool :=
  distinctb (map href (links group)).

(** The [href]s that [navigation] gives to more than one link. *)
Definition repeatedHrefs : list string :=
  [ "/contacts"; "/conversations"; "/messages"; "/groups"; "/attachments" ].

(** All the [href]s of a content tree, in display order. *)
Definition treeHrefs (tree : list Group) : list string :=
  flat_map (fun group => map href (links group)) tree.

(** The successive calls [useInitialValue(value, condition)] of one
    component instance, one per render: the values the hook returns, the
    ref carried from each call to the next. *)
Fixpoint useInitialValue_run {A : Type}
    (slot : option A) (calls : list (A * bool)) : list A :=
  match calls with
  | [] => []
  | (value, condition) :: later =>
      let '(result, slot') := useInitialValue slot value condition in
      result :: useInitialValue_run slot' later
  end.

(** ** The band's top as the specification words it

    "top = H x (index of active link within its group) + H x (index of the
    first currently-visible section within the full ordered section list,
    defaulting to 0 if none match)": the second index is taken in the
    section list itself. *)
Definition spec_sectionIndex
    (sections : list Section_) (visibleSections : list string) : Z :=
  Z.max 0
    (findIndex (fun section => strictEq (id section) (at_index visibleSections 0))
               sections).

Definition spec_bandTop (remToPx : Q -> Q) (group : Group) (p : string)
    (sections : list Section_) (visibleSections : list string) : Q :=
  (itemHeight remToPx * inject_Z (activePageIndex group p) +
   itemHeight remToPx * inject_Z (spec_sectionIndex sections visibleSections))%Q.

(** [n] is the first position of [l] whose element satisfies [P]. *)
Definition firstAt {A : Type} (P : A -> Prop) (l : list A) (n : nat) : Prop :=
  (exists x, nth_error l n = Some x /\ P x) /\
  forall (j : nat) y, (j < n)%nat -> nth_error l j = Some y -> ~ P y.

(** ** Sample inputs *)

(** The group of the specification's scenario: the first two links of the
    "Javascript" group. *)
Definition scenarioGroup : Group :=
  mkGroup "Javascript"
    [ mkLink "词法环境" "/"; mkLink "问题摘要" "/quickstart" ].

(** The group of [navigation] with two links to the same page
    ([/contacts]). *)
Definition algorithmsGroup : Group :=
  mkGroup "前端算法实战"
    [ mkLink "前端算法实战" "/contacts"; mkLink "网站大全" "/contacts" ].

Definition plainSection (i : string) : Section_ :=
  {| id := i; stitle := Some i; tag := None |}.

Definition introUsage : list Section_ :=
  [ plainSection "intro"; plainSection "usage" ].



(** The page of the scenario, on the desktop: sections "intro" and
    "usage", both visible. *)
Definition introUsageVisible (p : string) : Env :=
  mkEnv (mkRouter p) introUsage ["intro"; "usage"] false true.

(** ** Facts about [findIndex] *)

Section FindIndex.
Context {A : Type}.
Variable pred : A -> bool.

Lemma findIndex_from_range (l : list A) (i : Z) :
  findIndex_from pred l i = -1 \/
  (i <= findIndex_from pred l i < i + Z.of_nat (length l)).
Proof.
  revert i; induction l as [|x rest IH]; intros i; simpl.
  - now left.
  - destruct (pred x).
    + right; lia.
    + destruct (IH (i + 1)) as [E | R]; [now left | right; lia].
Qed.

Lemma findIndex_from_none (l : list A) (i : Z) :
  0 <= i ->
  (findIndex_from pred l i = -1 <-> forall x, In x l -> pred x = false).
Proof.
  revert i; induction l as [|x rest IH]; intros i Hi; simpl.
  - split; [intros _ y [] | reflexivity].
  - destruct (pred x) eqn:Px.
    + split; [lia | intros H; specialize (H x (or_introl eq_refl)); congruence].
    + rewrite IH by lia. split.
      * intros H y [<- | Hy]; auto.
      * intros H y Hy; apply H; now right.
Qed.

(** The index found is the least one whose element satisfies [pred]. *)
Lemma findIndex_from_first (l : list A) (i k : Z) :
  findIndex_from pred l i = k -> k <> -1 -> 0 <= i ->
  exists x, nth_error l (Z.to_nat (k - i)) = Some x /\ pred x = true /\
    forall (j : nat) y, (j < Z.to_nat (k - i))%nat ->
      nth_error l j = Some y -> pred y = false.
Proof.
  revert i; induction l as [|x rest IH]; intros i Hk Hne Hi; simpl in *.
  - congruence.
  - destruct (pred x) eqn:Px.
    + subst k. replace (i - i) with 0 by lia. exists x; simpl.
      repeat split; auto. intros j y Hj; lia.
    + destruct (findIndex_from_range rest (i + 1)) as [E | R]; [congruence|].
      destruct (IH (i + 1) Hk Hne ltac:(lia)) as (y & Hy & Py & Hmin).
      rewrite Hk in R.
      replace (Z.to_nat (k - i)) with (S (Z.to_nat (k - (i + 1)))) by lia.
      exists y; simpl; repeat split; auto.
      intros [|j] z Hj Hz; simpl in Hz.
      * congruence.
      * apply (Hmin j z); [lia | assumption].
Qed.

(** Conversely, the least matching position is what [findIndex] answers. *)
Lemma findIndex_from_least (l : list A) (i : Z) (n : nat) (x : A) :
  nth_error l n = Some x -> pred x = true ->
  (forall (j : nat) y, (j < n)%nat -> nth_error l j = Some y -> pred y = false) ->
  findIndex_from pred l i = i + Z.of_nat n.
Proof.
  revert i n; induction l as [|a rest IH]; intros i n Hn Px Hmin.
  - destruct n; discriminate.
  - destruct n as [|n]; simpl in *.
    + injection Hn as ->. rewrite Px. lia.
    + rewrite (Hmin 0%nat a ltac:(lia) eq_refl).
      rewrite (IH (i + 1) n Hn Px); [lia|].
      intros j y Hj Hy. apply (Hmin (S j) y); [lia | exact Hy].
Qed.
End FindIndex.

Lemma hrefIs_true (p : string) (l : Link) : hrefIs p l = true <-> href l = p.
Proof. unfold hrefIs. apply String.eqb_eq. Qed.

Lemma hrefIs_false (p : string) (l : Link) : hrefIs p l = false <-> href l <> p.
Proof. unfold hrefIs. apply String.eqb_neq. Qed.

(** C1. For every group [G] and path [p]: [isActiveGroup G p] is [true]
    exactly when some link of [G] has [href] equal to [p]; the index
    computed by [findIndex] is [-1] exactly when no link matches; and when
    it is not [-1] it is the zero-based position of a link of [G] whose
    [href] is [p]. *)
Theorem C1_active_iff_some_link_matches :
  forall (G : Group) (p : string),
    (isActiveGroup G p = true <-> exists l, In l (links G) /\ href l = p) /\
    (activePageIndex G p = -1 <-> forall l, In l (links G) -> href l <> p) /\
    (activePageIndex G p = -1 \/
     exists l, 0 <= activePageIndex G p < Z.of_nat (length (links G)) /\
       nth_error (links G) (Z.to_nat (activePageIndex G p)) = Some l /\
       href l = p).
Proof.
  intros G p.
  assert (Hnone : activePageIndex G p = -1 <->
                  forall l, In l (links G) -> href l <> p).
  { unfold activePageIndex, findIndex.
    rewrite findIndex_from_none by lia.
    split; intros H l Hl; apply hrefIs_false; auto. }
  assert (Hidx : activePageIndex G p = -1 \/
     exists l, 0 <= activePageIndex G p < Z.of_nat (length (links G)) /\
       nth_error (links G) (Z.to_nat (activePageIndex G p)) = Some l /\
       href l = p).
  { destruct (Z.eq_dec (activePageIndex G p) (-1)) as [E | N]; [now left | right].
    unfold activePageIndex, findIndex in *.
    destruct (findIndex_from_first (hrefIs p) (links G) 0 _ eq_refl N ltac:(lia))
      as (l & Hl & Pl & _).
    destruct (findIndex_from_range (hrefIs p) (links G) 0) as [E | R]; [congruence|].
    exists l. rewrite Z.sub_0_r in Hl. repeat split; try lia; auto.
    now apply hrefIs_true. }
  repeat split; try apply Hnone; auto.
  - unfold isActiveGroup. intros H.
    destruct Hidx as [E | (l & _ & Hl & Hp)].
    + rewrite E in H. discriminate.
    + exists l. split; [eapply nth_error_In; eauto | exact Hp].
  - intros (l & Hl & Hp). unfold isActiveGroup.
    destruct (Z.eqb_spec (activePageIndex G p) (-1)) as [E | N]; [|reflexivity].
    exfalso. apply (proj1 Hnone E l Hl Hp).
Qed.

(** [findIndex] answers [n] exactly when [n] is the first position whose
    element satisfies the callback. *)
Lemma findIndex_firstAt {A : Type} (pred : A -> bool) (l : list A) (n : nat) :
  findIndex pred l = Z.of_nat n <-> firstAt (fun x => pred x = true) l n.
Proof.
  unfold findIndex, firstAt. split.
  - intros H.
    destruct (findIndex_from_first pred l 0 _ H ltac:(lia) ltac:(lia))
      as (x & Hx & Px & Hmin).
    replace (Z.to_nat (Z.of_nat n - 0)) with n in * by lia.
    split; [exists x; auto|].
    intros j y Hj Hy. rewrite (Hmin j y Hj Hy). discriminate.
  - intros [(x & Hx & Px) Hmin].
    rewrite (findIndex_from_least pred l 0 n x Hx Px); [lia|].
    intros j y Hj Hy. specialize (Hmin j y Hj Hy).
    destruct (pred y); congruence.
Qed.

Lemma findIndex_none {A : Type} (pred : A -> bool) (l : list A) :
  findIndex pred l = -1 <-> forall x, In x l -> pred x = false.
Proof. unfold findIndex. apply findIndex_from_none. lia. Qed.

Lemma findIndex_range {A : Type} (pred : A -> bool) (l : list A) :
  findIndex pred l = -1 \/ 0 <= findIndex pred l < Z.of_nat (length l).
Proof.
  unfold findIndex.
  destruct (findIndex_from_range pred l 0); [now left | right; lia].
Qed.

(** The active index of a group, as a position of its [links]. *)
Lemma activePageIndex_firstAt (G : Group) (p : string) (n : nat) :
  activePageIndex G p = Z.of_nat n <-> firstAt (fun l => href l = p) (links G) n.
Proof.
  unfold activePageIndex. rewrite findIndex_firstAt. unfold firstAt.
  split; intros [(x & Hx & Px) Hmin]; (split; [exists x; split; auto|]).
  - now apply hrefIs_true.
  - intros j y Hj Hy E. apply (Hmin j y Hj Hy). now apply hrefIs_true.
  - now apply hrefIs_true.
  - intros j y Hj Hy E. apply (Hmin j y Hj Hy). now apply hrefIs_true.
Qed.

Lemma isActiveGroup_index (G : Group) (p : string) :
  isActiveGroup G p = true ->
  exists n : nat, activePageIndex G p = Z.of_nat n.
Proof.
  unfold isActiveGroup, activePageIndex. intros H.
  destruct (findIndex_range (hrefIs p) (links G)) as [E | R].
  - rewrite E in H. discriminate.
  - exists (Z.to_nat (findIndex (hrefIs p) (links G))). lia.
Qed.

Lemma isActiveGroup_false (G : Group) (p : string) :
  isActiveGroup G p = false <-> forall l, In l (links G) -> href l <> p.
Proof.
  unfold isActiveGroup, activePageIndex. rewrite negb_false_iff, Z.eqb_eq.
  rewrite findIndex_none. split; intros H l Hl; apply hrefIs_false; auto.
Qed.

(** ** The highlight band and the marker *)

(** The index added for the visible sections, read off the inputs: it is
    the position of [visibleSections[0]] in the list that starts with the
    [_top] entry, and [0] when that list has no such entry. *)
Lemma firstVisibleSectionIndex_firstAt
    (sections : list Section_) (v : string) (others : list string) (n : nat) :
  firstAt (fun s => id s = v) (topSection :: sections) n ->
  firstVisibleSectionIndex sections (v :: others) = Z.of_nat n.
Proof.
  intros [(x & Hx & Px) Hmin]. unfold firstVisibleSectionIndex.
  replace (findIndex _ (topSection :: sections)) with (Z.of_nat n); [lia|].
  symmetry. apply findIndex_firstAt. split.
  - exists x. split; [exact Hx|]. simpl. now apply String.eqb_eq.
  - intros j y Hj Hy E. apply (Hmin j y Hj Hy). simpl in E.
    now apply String.eqb_eq.
Qed.

Lemma firstVisibleSectionIndex_default
    (sections : list Section_) (visibleSections : list string) :
  (visibleSections = [] \/
   exists v others, visibleSections = v :: others /\
     forall s, In s (topSection :: sections) -> id s <> v) ->
  firstVisibleSectionIndex sections visibleSections = 0.
Proof.
  intros H. unfold firstVisibleSectionIndex.
  replace (findIndex _ (topSection :: sections)) with (-1); [reflexivity|].
  symmetry. apply findIndex_none. intros s Hs.
  destruct H as [-> | (v & others & -> & Hno)]; simpl.
  - reflexivity.
  - apply String.eqb_neq. now apply Hno.
Qed.

(** What [VisibleSectionHighlight] puts in the band's style: the two
    lengths computed from the sections and the visible sections that the
    hook hands to it. *)
Lemma VisibleSectionHighlight_el (remToPx : Q -> Q)
    (slot : option (list Section_ * list string)) (env : Env)
    (G : Group) (p : string) :
  band_top (fst (VisibleSectionHighlight remToPx slot env G p)) =
    bandTop remToPx G p (fst (seenByBand slot env)) (snd (seenByBand slot env)) /\
  band_height (fst (VisibleSectionHighlight remToPx slot env G p)) =
    bandHeight remToPx (env_isPresent env) (snd (seenByBand slot env)).
Proof.
  unfold VisibleSectionHighlight, seenByBand.
  destruct (useInitialValue slot (env_sections env, env_visibleSections env)
              (env_isInsideMobileNavigation env)) as [[sections visibleSections] slot'].
  now split.
Qed.

Lemma firstVisibleSectionIndex_shift
    (sections : list Section_) (v : string) (others : list string) (k : nat) :
  v <> "_top" ->
  firstAt (fun s => id s = v) sections k ->
  firstVisibleSectionIndex sections (v :: others) = Z.of_nat k + 1.
Proof.
  intros Hv [(x & Hx & Px) Hmin].
  rewrite (firstVisibleSectionIndex_firstAt sections v others (S k)); [lia|].
  split.
  - exists x. split; [exact Hx | exact Px].
  - intros [|j] y Hj Hy; simpl in Hy.
    + injection Hy as <-. simpl. congruence.
    + apply (Hmin j y); [lia | exact Hy].
Qed.

(** C3 (as the code has it). For every active group, the [top] in the
    style of the band that [VisibleSectionHighlight] returns is [H] times
    the position of the first link whose [href] is the path, plus [H]
    times the position of [visibleSections[0]] in the list made of the
    [_top] entry followed by the sections ([0] when [visibleSections] is
    empty or names no entry of that list).  So a first visible section that
    is the [k]-th section (from zero) and is not called [_top] adds
    [H * (k + 1)]; with [visibleSections = ["intro"; "usage"]] and "intro"
    the first section, the sections add [H], not [0]. *)
Theorem C3_band_top_counts_top_entry :
  forall (remToPx : Q -> Q) (G : Group) (p : string)
         (slot : option (list Section_ * list string)) (env : Env)
         (sections : list Section_) (visibleSections : list string),
    isActiveGroup G p = true ->
    seenByBand slot env = (sections, visibleSections) ->
    let top := band_top (fst (VisibleSectionHighlight remToPx slot env G p)) in
    (exists (n : nat) (j : nat),
        firstAt (fun l => href l = p) (links G) n /\
        firstVisibleSectionIndex sections visibleSections = Z.of_nat j /\
        (top == itemHeight remToPx * inject_Z (Z.of_nat n) +
                itemHeight remToPx * inject_Z (Z.of_nat j))%Q) /\
    (forall v others m,
        visibleSections = v :: others ->
        firstAt (fun s => id s = v) (topSection :: sections) m ->
        (top == itemHeight remToPx * inject_Z (activePageIndex G p) +
                itemHeight remToPx * inject_Z (Z.of_nat m))%Q) /\
    (forall v others k,
        visibleSections = v :: others -> v <> "_top" ->
        firstAt (fun s => id s = v) sections k ->
        (top == itemHeight remToPx * inject_Z (activePageIndex G p) +
                itemHeight remToPx * inject_Z (Z.of_nat k + 1))%Q) /\
    ((visibleSections = [] \/
      exists v others, visibleSections = v :: others /\
        forall s, In s (topSection :: sections) -> id s <> v) ->
     (top == itemHeight remToPx * inject_Z (activePageIndex G p))%Q) /\
    (forall first later,
        sections = first :: later -> id first = "intro" ->
        visibleSections = ["intro"; "usage"] ->
        (top - itemHeight remToPx * inject_Z (activePageIndex G p) ==
         itemHeight remToPx)%Q).
Proof.
  intros remToPx G p slot env sections visibleSections Hact Hseen top.
  assert (Htop : top = bandTop remToPx G p sections visibleSections).
  { subst top.
    rewrite (proj1 (VisibleSectionHighlight_el remToPx slot env G p)), Hseen.
    reflexivity. }
  rewrite Htop. clear Htop top. unfold bandTop.
  repeat split.
  - destruct (isActiveGroup_index G p Hact) as (n & Hn).
    assert (Hj : 0 <= firstVisibleSectionIndex sections visibleSections)
      by (unfold firstVisibleSectionIndex; lia).
    exists n, (Z.to_nat (firstVisibleSectionIndex sections visibleSections)).
    split; [now apply activePageIndex_firstAt|].
    split; [lia|].
    rewrite Hn, Z2Nat.id by exact Hj. ring.
  - intros v others m -> Hm.
    rewrite (firstVisibleSectionIndex_firstAt sections v others m Hm). ring.
  - intros v others k -> Hv Hk.
    rewrite (firstVisibleSectionIndex_shift sections v others k Hv Hk). ring.
  - intros Hnone.
    rewrite (firstVisibleSectionIndex_default sections visibleSections Hnone).
    change (inject_Z 0) with 0%Q. ring.
  - intros first later Hs Hid Hv. rewrite Hv.
    rewrite (firstVisibleSectionIndex_shift sections "intro" ["usage"] 0%nat);
      [simpl; ring | discriminate |].
    rewrite Hs. split.
    + exists first. split; [reflexivity | exact Hid].
    + intros j y Hj. lia.
Qed.

(** The scenario on the "Javascript" group at [/], with a 16px root font:
    the band that is rendered sits one row (32px) below the row of the
    active link. *)
Lemma C3_band_top_witness :
  isActiveGroup scenarioGroup "/" = true /\
  (band_top (fst (VisibleSectionHighlight (remToPxAt 16) None
                    (introUsageVisible "/") scenarioGroup "/")) -
   itemHeight (remToPxAt 16) * inject_Z (activePageIndex scenarioGroup "/") ==
   itemHeight (remToPxAt 16))%Q.
Proof.
  split; [reflexivity|].
  exact (proj2 (proj2 (proj2 (proj2
    (C3_band_top_counts_top_entry (remToPxAt 16) scenarioGroup "/" None
       (introUsageVisible "/") introUsage ["intro"; "usage"] eq_refl eq_refl))))
    (plainSection "intro") [plainSection "usage"] eq_refl eq_refl eq_refl).
Defined.

(** C3 (as the specification words it) fails: with
    [visibleSections = ["intro"; "usage"]] and "intro" the first section,
    the [top] of the band that [VisibleSectionHighlight] returns is not
    the specification's expression, and what the sections add to it is
    32px (one row at a 16px root font), not 0. *)
Lemma C3_counterexample :
  isActiveGroup scenarioGroup "/" = true /\
  seenByBand None (introUsageVisible "/") = (introUsage, ["intro"; "usage"]) /\
  ~ (band_top (fst (VisibleSectionHighlight (remToPxAt 16) None
                      (introUsageVisible "/") scenarioGroup "/")) ==
     spec_bandTop (remToPxAt 16) scenarioGroup "/" introUsage ["intro"; "usage"])%Q /\
  spec_sectionIndex introUsage ["intro"; "usage"] = 0 /\
  ~ (band_top (fst (VisibleSectionHighlight (remToPxAt 16) None
                      (introUsageVisible "/") scenarioGroup "/")) -
     itemHeight (remToPxAt 16) * inject_Z (activePageIndex scenarioGroup "/") ==
     0)%Q.
Proof.
  repeat split; try reflexivity; intros H; vm_compute in H; discriminate H.
Qed.

(** C4. While the band is present its height is [H] times
    [max 1 (length visibleSections)]: [H] times the length for a list that
    is not empty, [H] times [1] for the empty list; when it is not present
    the height is [H].  The band that [VisibleSectionHighlight] renders on
    its first render has that height for the visible sections of the
    store. *)
Theorem C4_band_height :
  forall (remToPx : Q -> Q) (visibleSections : list string),
    (bandHeight remToPx true visibleSections ==
     itemHeight remToPx *
     inject_Z (Z.max 1 (Z.of_nat (length visibleSections))))%Q /\
    (visibleSections <> [] ->
     (bandHeight remToPx true visibleSections ==
      itemHeight remToPx * inject_Z (Z.of_nat (length visibleSections)))%Q) /\
    (bandHeight remToPx true [] == itemHeight remToPx * 1)%Q /\
    bandHeight remToPx false visibleSections = itemHeight remToPx /\
    (forall env G p,
        env_visibleSections env = visibleSections ->
        band_height (fst (VisibleSectionHighlight remToPx None env G p)) =
        bandHeight remToPx (env_isPresent env) visibleSections).
Proof.
  intros remToPx visibleSections. repeat split.
  - unfold bandHeight. ring.
  - intros Hne. unfold bandHeight.
    destruct visibleSections as [|v others]; [congruence|].
    rewrite Z.max_r by (simpl length; lia). ring.
  - unfold bandHeight.
    change (inject_Z (Z.max 1 (Z.of_nat (length (@nil string))))) with 1%Q.
    ring.
  - intros env G p <-. unfold VisibleSectionHighlight, useInitialValue, useRef.
    simpl. destruct (env_isInsideMobileNavigation env); reflexivity.
Qed.

(** C5. For every active group the marker's top is the fixed offset [O]
    plus [H] times the position of the first link whose [href] is the
    path.  For the group of the scenario at [/quickstart]: the group is
    active, the index is 1 and the marker's top is [O + H]. *)
Theorem C5_marker_top :
  forall (remToPx : Q -> Q),
    (forall G p,
        isActiveGroup G p = true ->
        exists n : nat,
          firstAt (fun l => href l = p) (links G) n /\
          activePageIndex G p = Z.of_nat n /\
          (markerTop remToPx G p ==
           offset remToPx + itemHeight remToPx * inject_Z (Z.of_nat n))%Q /\
          marker_top (ActivePageMarker remToPx G p) = markerTop remToPx G p) /\
    isActiveGroup scenarioGroup "/quickstart" = true /\
    activePageIndex scenarioGroup "/quickstart" = 1 /\
    (markerTop remToPx scenarioGroup "/quickstart" ==
     offset remToPx + itemHeight remToPx)%Q.
Proof.
  intros remToPx. repeat split.
  - intros G p Hact.
    destruct (isActiveGroup_index G p Hact) as (n & Hn).
    exists n. repeat split.
    + apply activePageIndex_firstAt in Hn. apply Hn.
    + apply activePageIndex_firstAt in Hn. apply Hn.
    + exact Hn.
    + unfold markerTop. rewrite Hn. ring.
  - unfold markerTop.
    replace (activePageIndex scenarioGroup "/quickstart") with 1 by reflexivity.
    ring.
Qed.



(** C10. When several links of a group have the path as [href], the index
    that both overlays use is the position of the first of them: if [n] is
    the first matching position (and [m] another matching position), the
    computed index is [n], it is below [m], and both the [top] of the
    marker that [ActivePageMarker] returns and the [top] of the band that
    [VisibleSectionHighlight] returns are computed from [n]. *)
Theorem C10_first_match_wins :
  forall (remToPx : Q -> Q) (G : Group) (p : string) (n m : nat) (lm : Link)
         (slot : option (list Section_ * list string)) (env : Env),
    firstAt (fun l => href l = p) (links G) n ->
    nth_error (links G) m = Some lm -> href lm = p -> m <> n ->
    activePageIndex G p = Z.of_nat n /\
    (n < m)%nat /\
    (marker_top (ActivePageMarker remToPx G p) ==
     offset remToPx + itemHeight remToPx * inject_Z (Z.of_nat n))%Q /\
    (band_top (fst (VisibleSectionHighlight remToPx slot env G p)) ==
     itemHeight remToPx * inject_Z (Z.of_nat n) +
     itemHeight remToPx *
     inject_Z (firstVisibleSectionIndex (fst (seenByBand slot env))
                                        (snd (seenByBand slot env))))%Q.
Proof.
  intros remToPx G p n m lm slot env Hn Hm Hp Hne.
  assert (E : activePageIndex G p = Z.of_nat n)
    by now apply activePageIndex_firstAt.
  repeat split.
  - exact E.
  - destruct Hn as [_ Hmin].
    destruct (Nat.lt_trichotomy m n) as [Lt | [Eq | Gt]]; [|congruence|exact Gt].
    exfalso. exact (Hmin m lm Lt Hm Hp).
  - cbn [ActivePageMarker marker_top]. unfold markerTop. rewrite E. ring.
  - rewrite (proj1 (VisibleSectionHighlight_el remToPx slot env G p)).
    unfold bandTop. rewrite E. ring.
Qed.

(** The group with two links to [/contacts]: position 0 is the first
    match, position 1 also matches, the index is 0, and marker and band
    are placed on row 0. *)
Lemma C10_first_match_witness :
  activePageIndex algorithmsGroup "/contacts" = 0 /\
  (marker_top (ActivePageMarker (remToPxAt 16) algorithmsGroup "/contacts") ==
   offset (remToPxAt 16) + itemHeight (remToPxAt 16) * inject_Z 0)%Q /\
  (band_top (fst (VisibleSectionHighlight (remToPxAt 16) None
                    (introUsageVisible "/contacts") algorithmsGroup "/contacts")) ==
   itemHeight (remToPxAt 16) * inject_Z 0 +
   itemHeight (remToPxAt 16) * inject_Z 1)%Q.
Proof.
  assert (H0 : firstAt (fun l => href l = "/contacts") (links algorithmsGroup) 0).
  { split.
    - exists (mkLink "前端算法实战" "/contacts"). split; reflexivity.
    - intros j y Hj. inversion Hj. }
  pose proof (C10_first_match_wins (remToPxAt 16) algorithmsGroup "/contacts"
                0%nat 1%nat (mkLink "网站大全" "/contacts")
                None (introUsageVisible "/contacts")
                H0 eq_refl eq_refl ltac:(discriminate)) as (E & _ & M & B).
  split; [exact E | split; [exact M | exact B]].
Defined.

(** ** The rendered tree *)

Lemma useInitialValue_live {A : Type} (slot : option A) (value : A) (condition : bool) :
  slot = None \/ condition = false ->
  fst (useInitialValue slot value condition) = value.
Proof.
  unfold useInitialValue, useRef.
  intros [-> | ->]; [destruct condition | destruct slot]; reflexivity.
Qed.

Lemma NavigationGroup_el (remToPx : Q -> Q) (st : GroupState) (env : Env)
    (G : Group) (className : option string) :
  let p := pathname (fst (seen st env)) in
  let el := fst (NavigationGroup remToPx st env G className) in
  g_items el = map (linkItem p (snd (seen st env))) (links G) /\
  (isActiveGroup G p = false -> g_highlight el = None /\ g_marker el = None) /\
  (isActiveGroup G p = true ->
   g_highlight el =
     Some (fst (VisibleSectionHighlight remToPx (bandSlot st) env G p)) /\
   g_marker el = Some (ActivePageMarker remToPx G p)).
Proof.
  unfold seen, NavigationGroup.
  destruct (useInitialValue (navSlot st) (env_router env, env_sections env)
              (env_isInsideMobileNavigation env)) as [[router sections] nav'].
  cbn [fst snd].
  destruct (isActiveGroup G (pathname router)) eqn:Hact.
  - destruct (VisibleSectionHighlight remToPx (bandSlot st) env G (pathname router))
      as [el slot'].
    cbn. repeat split; congruence.
  - cbn. repeat split; congruence.
Qed.

Lemma renderGroups_cons (remToPx : Q -> Q) (G : Group) (rest : list Group)
    (sts : list GroupState) (env : Env) (i : Z) :
  renderGroups remToPx (G :: rest) sts env i =
  (fst (NavigationGroup remToPx (hd freshGroup sts) env G
          (if i =? 0 then Some "md:mt-0" else None))
     :: fst (renderGroups remToPx rest (tl sts) env (i + 1)),
   snd (NavigationGroup remToPx (hd freshGroup sts) env G
          (if i =? 0 then Some "md:mt-0" else None))
     :: snd (renderGroups remToPx rest (tl sts) env (i + 1))).
Proof.
  cbn [renderGroups].
  destruct (NavigationGroup remToPx (hd freshGroup sts) env G _) as [el st'].
  destruct (renderGroups remToPx rest (tl sts) env (i + 1)) as [els sts'].
  reflexivity.
Qed.

Lemma Navigation_groups (remToPx : Q -> Q) (tree : list Group)
    (sts : list GroupState) (env : Env) :
  n_groups (fst (Navigation remToPx tree sts env)) =
  fst (renderGroups remToPx tree sts env 0).
Proof.
  unfold Navigation.
  destruct (renderGroups remToPx tree sts env 0) as [els sts']. reflexivity.
Qed.

Lemma readsLive_hd (sts : list GroupState) (env : Env) :
  readsLive sts env -> seen (hd freshGroup sts) env = (env_router env, env_sections env).
Proof.
  intros H. unfold seen. apply useInitialValue_live.
  destruct H as [H | H]; [left | now right].
  destruct sts as [|st rest]; [reflexivity | now inversion H].
Qed.

Lemma readsLive_tl (sts : list GroupState) (env : Env) :
  readsLive sts env -> readsLive (tl sts) env.
Proof.
  intros [H | H]; [left | now right].
  destruct sts as [|st rest]; [constructor | now inversion H].
Qed.





(** ** Sub-section lists *)

(** A link item carries a sub-section list exactly when its [href] is the
    path and there is at least one section. *)
Lemma linkItem_expansion (p : string) (sections : list Section_) (link : Link) :
  isSome (li_expansion (linkItem p sections link)) = true <->
  href link = p /\ sections <> [].
Proof.
  unfold linkItem; cbn [li_expansion].
  destruct (String.eqb_spec (href link) p) as [E | N]; cbn [andb].
  - destruct sections as [|s rest]; cbn.
    + split; [discriminate | intros [_ H]; congruence].
    + split; [intros _; split; [exact E | discriminate] | reflexivity].
  - cbn. split; [discriminate | intros [E _]; contradiction].
Qed.

(** Every sub-section list of a rendered group hangs under a link whose
    [href] is the path the group works with, and that link is the one shown
    as active. *)
Lemma expansion_only_under_matching_link
    (remToPx : Q -> Q) (st : GroupState) (env : Env) (G : Group)
    (className : option string) (item : LinkItemEl) :
  In item (g_items (fst (NavigationGroup remToPx st env G className))) ->
  isSome (li_expansion item) = true ->
  li_key item = pathname (fst (seen st env)) /\
  nl_active (li_link item) = true /\
  snd (seen st env) <> [].
Proof.
  destruct (NavigationGroup_el remToPx st env G className) as (-> & _ & _).
  rewrite in_map_iff. intros (link & <- & _) Hsome.
  apply linkItem_expansion in Hsome. destruct Hsome as [E Hne].
  cbn. repeat split; auto. now apply String.eqb_eq.
Qed.

(** The number of sub-section lists of a rendered group is the number of
    its links whose [href] is the path, when there are sections, and none
    otherwise. *)
Lemma groupExpansions_count
    (remToPx : Q -> Q) (st : GroupState) (env : Env) (G : Group)
    (className : option string) :
  groupExpansions (fst (NavigationGroup remToPx st env G className)) =
  match snd (seen st env) with
  | [] => 0%nat
  | _ :: _ => length (filter (hrefIs (pathname (fst (seen st env)))) (links G))
  end.
Proof.
  unfold groupExpansions.
  destruct (NavigationGroup_el remToPx st env G className) as (-> & _ & _).
  generalize (pathname (fst (seen st env))) as p.
  generalize (snd (seen st env)) as sections. intros sections p.
  induction (links G) as [|link rest IH]; cbn [map filter].
  - now destruct sections.
  - destruct (isSome (li_expansion (linkItem p sections link))) eqn:E.
    + apply linkItem_expansion in E. destruct E as [E Hne].
      apply hrefIs_true in E. rewrite E. cbn [length]. rewrite IH.
      destruct sections; [congruence | reflexivity].
    + rewrite IH. destruct sections as [|s more]; [reflexivity|].
      destruct (hrefIs p link) eqn:Hp; [|reflexivity].
      apply hrefIs_true in Hp.
      assert (isSome (li_expansion (linkItem p (s :: more) link)) = true)
        by (apply linkItem_expansion; split; [exact Hp | discriminate]).
      congruence.
Qed.

Lemma distinctb_NoDup (l : list string) : distinctb l = true <-> NoDup l.
Proof.
  induction l as [|x rest IH]; cbn [distinctb].
  - split; [constructor | reflexivity].
  - rewrite andb_true_iff, negb_true_iff, IH. split.
    + intros [Hx Hr]. constructor; [|exact Hr].
      intros Hin. assert (existsb (String.eqb x) rest = true); [|congruence].
      apply existsb_exists. exists x. split; [exact Hin | apply String.eqb_refl].
    + intros H. inversion H as [|? ? Hx Hr]; subst. split; [|exact Hr].
      destruct (existsb (String.eqb x) rest) eqn:E; [|reflexivity].
      apply existsb_exists in E. destruct E as (y & Hy & Exy).
      apply String.eqb_eq in Exy. subst y. contradiction.
Qed.

(** C2 (what the code does on the content tree). At [/contacts], with two
    sections on the page, a freshly mounted navigation renders twelve
    sub-section lists: one under each link to [/contacts], two of them in
    the same group. *)
Theorem C2_twelve_expansions_at_contacts :
  forall (remToPx : Q -> Q),
    let env := mkEnv (mkRouter "/contacts") introUsage ["intro"] false true in
    expansions (fst (Navigation remToPx navigation mounted env)) = 12%nat /\
    map groupExpansions (n_groups (fst (Navigation remToPx navigation mounted env))) =
      [0; 1; 1; 1; 1; 2; 1; 1; 1; 1; 1; 1]%nat.
Proof.
  intros remToPx env. split; vm_compute; reflexivity.
Qed.

(** C6 (what the content tree holds). The [href]s are not pairwise
    different inside every group of [navigation]: seven of the twelve
    groups repeat one, the first being "Babel" with [/attachments] at
    positions 4 and 5. *)
Theorem C6_navigation_repeats_hrefs :
  ~ Forall (fun G => NoDup (map href (links G))) navigation /\
  map uniqueHrefs navigation =
    [true; false; true; false; true; false; true; false; false; true;
     false; false] /\
  (exists G l4 l5,
      nth_error navigation 1 = Some G /\ gtitle G = "Babel" /\
      nth_error (links G) 4 = Some l4 /\ nth_error (links G) 5 = Some l5 /\
      href l4 = "/attachments" /\ href l5 = "/attachments").
Proof.
  repeat split.
  - intros H. rewrite Forall_forall in H.
    assert (Hin : In (nth 1 navigation (mkGroup "" [])) navigation)
      by (apply nth_In; vm_compute; lia).
    specialize (H _ Hin). apply distinctb_NoDup in H. vm_compute in H.
    discriminate H.
  - do 3 eexists. repeat split; reflexivity.
Qed.

(** ** Frozen inputs inside the mobile navigation *)

(** A group rendered again inside the mobile navigation returns the
    element of its first render and keeps its hook state. *)
Lemma NavigationGroup_frozen (remToPx : Q -> Q) (env0 env : Env) (G : Group)
    (className : option string) :
  env_isInsideMobileNavigation env0 = true ->
  stillOpen env0 env ->
  NavigationGroup remToPx
    (snd (NavigationGroup remToPx freshGroup env0 G className)) env G className =
  NavigationGroup remToPx freshGroup env0 G className.
Proof.
  intros H0 [Hin Hpres].
  unfold NavigationGroup, VisibleSectionHighlight, useInitialValue, useRef.
  rewrite H0. cbn.
  destruct (isActiveGroup G (pathname (env_router env0))) eqn:Hact;
    cbn; rewrite Hin; cbn; rewrite Hact; cbn; rewrite ?Hpres; reflexivity.
Qed.

Lemma renderGroups_frozen (remToPx : Q -> Q) (env0 env : Env)
    (groups : list Group) (i : Z) :
  env_isInsideMobileNavigation env0 = true ->
  stillOpen env0 env ->
  renderGroups remToPx groups
    (snd (renderGroups remToPx groups [] env0 i)) env i =
  renderGroups remToPx groups [] env0 i.
Proof.
  intros H0 Hopen. revert i.
  induction groups as [|G rest IH]; intros i; [reflexivity|].
  rewrite (renderGroups_cons remToPx G rest [] env0 i). cbn [snd hd tl].
  rewrite renderGroups_cons. cbn [hd tl].
  rewrite NavigationGroup_frozen by assumption.
  rewrite IH. reflexivity.
Qed.

Lemma Navigation_frozen (remToPx : Q -> Q) (env0 env : Env) (tree : list Group) :
  env_isInsideMobileNavigation env0 = true ->
  stillOpen env0 env ->
  Navigation remToPx tree (snd (Navigation remToPx tree mounted env0)) env =
  Navigation remToPx tree mounted env0.
Proof.
  intros H0 Hopen. unfold Navigation, mounted.
  pose proof (renderGroups_frozen remToPx env0 env tree 0 H0 Hopen) as E.
  destruct (renderGroups remToPx tree [] env0 0) as [els sts'].
  cbn [snd] in *. rewrite E. reflexivity.
Qed.

Lemma renders_frozen (remToPx : Q -> Q) (env0 : Env) (tree : list Group)
    (later : list Env) :
  env_isInsideMobileNavigation env0 = true ->
  Forall (stillOpen env0) later ->
  renders remToPx tree (snd (Navigation remToPx tree mounted env0)) later =
  repeat (fst (Navigation remToPx tree mounted env0)) (length later).
Proof.
  intros H0. induction 1 as [|env later Hopen _ IH]; [reflexivity|].
  cbn [renders length repeat].
  rewrite (Navigation_frozen remToPx env0 env tree H0 Hopen).
  destruct (Navigation remToPx tree mounted env0) as [el sts'].
  cbn [fst snd] in *. now rewrite IH.
Qed.

(** C9. Inside the mobile navigation, every render of a mounted
    [Navigation] returns the element of its first render, whatever the
    router, the sections and the visible sections have become since; so
    two runs that start under the same environment and differ only in
    those later values return the same elements, render by render. *)
Theorem C9_mobile_navigation_renders_first_state :
  forall (remToPx : Q -> Q) (tree : list Group) (env0 : Env)
         (later1 later2 : list Env),
    env_isInsideMobileNavigation env0 = true ->
    Forall (stillOpen env0) later1 ->
    Forall (stillOpen env0) later2 ->
    renders remToPx tree mounted (env0 :: later1) =
      repeat (fst (Navigation remToPx tree mounted env0)) (S (length later1)) /\
    (length later1 = length later2 ->
     renders remToPx tree mounted (env0 :: later1) =
     renders remToPx tree mounted (env0 :: later2)).
Proof.
  intros remToPx tree env0 later1 later2 H0 H1 H2.
  assert (Hrun : forall later, Forall (stillOpen env0) later ->
            renders remToPx tree mounted (env0 :: later) =
            repeat (fst (Navigation remToPx tree mounted env0)) (S (length later))).
  { intros later Hl. cbn [renders repeat].
    pose proof (renders_frozen remToPx env0 tree later H0 Hl) as E.
    destruct (Navigation remToPx tree mounted env0) as [el sts'].
    cbn [fst snd] in *. now rewrite E. }
  split; [now apply Hrun|].
  intros Hlen. rewrite (Hrun later1 H1), (Hrun later2 H2), Hlen. reflexivity.
Qed.

(** The mobile navigation opened at [/quickstart]; one run then moves to
    [/sdks] with other sections, the other stays: both render the same. *)
Lemma C9_mobile_navigation_witness :
  renders (remToPxAt 16) navigation mounted
    [ mkEnv (mkRouter "/quickstart") introUsage ["intro"] true true;
      mkEnv (mkRouter "/sdks") [plainSection "install"] ["install"] true true ] =
  renders (remToPxAt 16) navigation mounted
    [ mkEnv (mkRouter "/quickstart") introUsage ["intro"] true true;
      mkEnv (mkRouter "/quickstart") introUsage ["usage"] true true ].
Proof.
  refine (proj2 (C9_mobile_navigation_renders_first_state (remToPxAt 16) navigation
    (mkEnv (mkRouter "/quickstart") introUsage ["intro"] true true)
    [ mkEnv (mkRouter "/sdks") [plainSection "install"] ["install"] true true ]
    [ mkEnv (mkRouter "/quickstart") introUsage ["usage"] true true ]
    eq_refl _ _) eq_refl);
  (constructor; [split; reflexivity | constructor]).
Defined.

(** Outside the mobile navigation the same two runs differ: the freeze is
    what makes them agree. *)
Lemma desktop_runs_differ :
  renders (remToPxAt 16) navigation mounted
    [ mkEnv (mkRouter "/quickstart") introUsage ["intro"] false true;
      mkEnv (mkRouter "/contacts") [plainSection "install"] ["install"] false true ] <>
  renders (remToPxAt 16) navigation mounted
    [ mkEnv (mkRouter "/quickstart") introUsage ["intro"] false true;
      mkEnv (mkRouter "/quickstart") introUsage ["usage"] false true ].
Proof.
  intros H.
  apply (f_equal (fun outs =>
    map (fun n => map (fun g => isSome (g_marker g)) (n_groups n)) outs)) in H.
  vm_compute in H. discriminate H.
Qed.

(** ** The hook across renders *)

Lemma useInitialValue_run_set {A : Type} (first : A) (calls : list (A * bool)) :
  useInitialValue_run (Some first) calls =
  map (fun call : A * bool => if snd call then first else fst call) calls.
Proof.
  induction calls as [|[value condition] later IH]; [reflexivity|].
  cbn [useInitialValue_run useInitialValue useRef map fst snd].
  now rewrite IH.
Qed.

(** X1. Over the renders of one component instance, [useInitialValue]
    returns the value of the first render on every call whose condition
    holds, and the value of the call itself otherwise; the first call
    returns its own value whatever its condition. *)
Theorem useInitialValue_returns_first_value :
  forall (A : Type) (value0 : A) (condition0 : bool) (later : list (A * bool)),
    useInitialValue_run None ((value0, condition0) :: later) =
    value0 :: map (fun call : A * bool => if snd call then value0 else fst call) later.
Proof.
  intros A value0 condition0 later.
  cbn [useInitialValue_run useInitialValue useRef].
  rewrite useInitialValue_run_set. now destruct condition0.
Qed.

(** ** Outside the mobile navigation *)

Lemma NavigationGroup_live (remToPx : Q -> Q) (st : GroupState) (env : Env)
    (G : Group) (className : option string) :
  env_isInsideMobileNavigation env = false ->
  fst (NavigationGroup remToPx st env G className) =
  fst (NavigationGroup remToPx freshGroup env G className).
Proof.
  intros Hout.
  unfold NavigationGroup, VisibleSectionHighlight, useInitialValue, useRef.
  rewrite Hout.
  destruct (navSlot st) as [[r s]|]; destruct (bandSlot st) as [[s' v']|]; cbn;
    destruct (isActiveGroup G (pathname (env_router env))); reflexivity.
Qed.

Lemma renderGroups_live (remToPx : Q -> Q) (groups : list Group)
    (sts : list GroupState) (env : Env) (i : Z) :
  env_isInsideMobileNavigation env = false ->
  fst (renderGroups remToPx groups sts env i) =
  fst (renderGroups remToPx groups [] env i).
Proof.
  intros Hout. revert sts i.
  induction groups as [|G rest IH]; intros sts i; [reflexivity|].
  rewrite !renderGroups_cons. cbn [fst hd tl].
  rewrite (NavigationGroup_live remToPx (hd freshGroup sts)) by exact Hout.
  now rewrite (IH (tl sts)).
Qed.

Lemma Navigation_live (remToPx : Q -> Q) (tree : list Group)
    (sts : list GroupState) (env : Env) :
  env_isInsideMobileNavigation env = false ->
  fst (Navigation remToPx tree sts env) =
  fst (Navigation remToPx tree mounted env).
Proof.
  intros Hout. unfold Navigation, mounted.
  pose proof (renderGroups_live remToPx tree sts env 0 Hout) as E.
  destruct (renderGroups remToPx tree sts env 0) as [els sts'].
  destruct (renderGroups remToPx tree [] env 0) as [els0 sts0].
  cbn [fst] in *. now rewrite E.
Qed.

(** X2. Outside the mobile navigation each render follows the live
    inputs: whatever the hook state has kept from earlier renders, the
    element returned is the one a freshly mounted navigation returns for
    the same environment. *)
Theorem desktop_renders_follow_live_state :
  forall (remToPx : Q -> Q) (tree : list Group)
         (sts : list GroupState) (envs : list Env),
    Forall (fun env => env_isInsideMobileNavigation env = false) envs ->
    renders remToPx tree sts envs =
    map (fun env => fst (Navigation remToPx tree mounted env)) envs.
Proof.
  intros remToPx tree sts envs Hout. revert sts.
  induction Hout as [|env later Henv _ IH]; intros sts; [reflexivity|].
  cbn [renders map].
  rewrite <- (Navigation_live remToPx tree sts env Henv).
  destruct (Navigation remToPx tree sts env) as [el sts'].
  cbn [fst]. now rewrite IH.
Qed.

(** Two renders on the desktop, the second after a move from
    [/quickstart] to [/contacts]. *)
Lemma desktop_renders_witness :
  renders (remToPxAt 16) navigation mounted
    [ mkEnv (mkRouter "/quickstart") introUsage ["intro"] false true;
      mkEnv (mkRouter "/contacts") [] [] false true ] =
  map (fun env => fst (Navigation (remToPxAt 16) navigation mounted env))
    [ mkEnv (mkRouter "/quickstart") introUsage ["intro"] false true;
      mkEnv (mkRouter "/contacts") [] [] false true ].
Proof.
  apply (desktop_renders_follow_live_state (remToPxAt 16) navigation mounted).
  repeat constructor.
Defined.

(** ** Where the overlays sit *)

(** X3. The index added for the visible sections is a row of the list
    that starts with the [_top] entry: it is never negative and never
    beyond the number of sections, whatever the store holds. *)
Theorem firstVisibleSectionIndex_bounds :
  forall (sections : list Section_) (visibleSections : list string),
    0 <= firstVisibleSectionIndex sections visibleSections
      <= Z.of_nat (length sections).
Proof.
  intros sections visibleSections. unfold firstVisibleSectionIndex.
  destruct (findIndex_range
              (fun section => strictEq (id section) (at_index visibleSections 0))
              (topSection :: sections)) as [E | R].
  - rewrite E. lia.
  - cbn [length] in R. lia.
Qed.

Lemma activePageIndex_bounds (G : Group) (p : string) :
  isActiveGroup G p = true ->
  0 <= activePageIndex G p <= Z.of_nat (length (links G)) - 1.
Proof.
  unfold isActiveGroup, activePageIndex. intros H.
  destruct (findIndex_range (hrefIs p) (links G)) as [E | R].
  - rewrite E in H. discriminate.
  - lia.
Qed.

(** X4. With a row height that is not negative, the band that
    [VisibleSectionHighlight] returns for an active group starts at the
    row of the active link or below it: its [top] is at least [H] times
    the active index, and at most that plus [H] times the number of
    sections; and its [height] is at least one row. *)
Theorem band_stays_within_rows :
  forall (remToPx : Q -> Q) (G : Group) (p : string)
         (slot : option (list Section_ * list string)) (env : Env),
    (0 <= itemHeight remToPx)%Q ->
    isActiveGroup G p = true ->
    let band := fst (VisibleSectionHighlight remToPx slot env G p) in
    (0 <= inject_Z (activePageIndex G p) * itemHeight remToPx)%Q /\
    (inject_Z (activePageIndex G p) * itemHeight remToPx <= band_top band)%Q /\
    (band_top band <=
     inject_Z (activePageIndex G p) * itemHeight remToPx +
     inject_Z (Z.of_nat (length (fst (seenByBand slot env)))) *
     itemHeight remToPx)%Q /\
    (itemHeight remToPx <= band_height band)%Q.
Proof.
  intros remToPx G p slot env HH Hact band. subst band.
  destruct (VisibleSectionHighlight_el remToPx slot env G p) as [-> ->].
  destruct (seenByBand slot env) as [sections visibleSections]. cbn [fst snd].
  pose proof (activePageIndex_bounds G p Hact) as [Hi _].
  pose proof (firstVisibleSectionIndex_bounds sections visibleSections) as [Hj Hk].
  set (H := itemHeight remToPx) in *.
  assert (Hmono : forall a b : Z, a <= b -> (inject_Z a * H <= inject_Z b * H)%Q).
  { intros a b Hab. apply Qmult_le_compat_r; [now rewrite <- Zle_Qle | exact HH]. }
  repeat split.
  - specialize (Hmono 0 _ Hi). now rewrite Qmult_0_l in Hmono.
  - unfold bandTop. fold H.
    specialize (Hmono 0 _ Hj). rewrite Qmult_0_l in Hmono.
    rewrite <- (Qplus_0_r (inject_Z (activePageIndex G p) * H)) at 1.
    now apply Qplus_le_r.
  - unfold bandTop. fold H. apply Qplus_le_r. now apply Hmono.
  - unfold bandHeight. fold H. destruct (env_isPresent env); [|apply Qle_refl].
    rewrite <- (Qmult_1_l H) at 1. apply (Hmono 1). lia.
Qed.

(** On the scenario group at [/quickstart], 16px root font, sections
    "intro" and "usage" visible: the band starts at 32px or below, at most
    two rows further down, and is at least 32px high. *)
Lemma band_stays_within_rows_witness :
  (inject_Z (activePageIndex scenarioGroup "/quickstart") * itemHeight (remToPxAt 16) <=
   band_top (fst (VisibleSectionHighlight (remToPxAt 16) None
                    (introUsageVisible "/quickstart") scenarioGroup "/quickstart")))%Q /\
  (band_top (fst (VisibleSectionHighlight (remToPxAt 16) None
                    (introUsageVisible "/quickstart") scenarioGroup "/quickstart")) <=
   inject_Z (activePageIndex scenarioGroup "/quickstart") * itemHeight (remToPxAt 16) +
   inject_Z 2 * itemHeight (remToPxAt 16))%Q /\
  (itemHeight (remToPxAt 16) <=
   band_height (fst (VisibleSectionHighlight (remToPxAt 16) None
                       (introUsageVisible "/quickstart") scenarioGroup "/quickstart")))%Q.
Proof.
  pose proof (band_stays_within_rows (remToPxAt 16) scenarioGroup "/quickstart"
                None (introUsageVisible "/quickstart")
                ltac:(discriminate) eq_refl)
    as (_ & Hlow & Hhigh & Hheight).
  split; [exact Hlow | split; [exact Hhigh | exact Hheight]].
Defined.



(** ** What a group renders *)

Lemma isActiveGroup_existsb (G : Group) (p : string) :
  isActiveGroup G p = existsb (hrefIs p) (links G).
Proof.
  destruct (existsb (hrefIs p) (links G)) eqn:E.
  - apply existsb_exists in E. destruct E as (l & Hl & Pl).
    destruct (isActiveGroup G p) eqn:A; [reflexivity|].
    rewrite isActiveGroup_false in A. apply hrefIs_true in Pl.
    now destruct (A l Hl).
  - apply isActiveGroup_false. intros l Hl.
    apply hrefIs_false. apply not_true_is_false. intros Pl.
    assert (existsb (hrefIs p) (links G) = true); [|congruence].
    apply existsb_exists. now exists l.
Qed.

Lemma existsb_active_items (p : string) (sections : list Section_) (ls : list Link) :
  existsb (fun item => nl_active (li_link item)) (map (linkItem p sections) ls) =
  existsb (hrefIs p) ls.
Proof.
  induction ls as [|l rest IH]; [reflexivity|].
  cbn [map existsb linkItem li_link nl_active]. now rewrite IH.
Qed.

(** X6. In every rendered group the highlight band and the marker come
    together, and they are there exactly when one of the group's links is
    rendered as the active one. *)
Theorem overlays_iff_some_link_active :
  forall (remToPx : Q -> Q) (st : GroupState) (env : Env) (G : Group)
         (className : option string),
    let el := fst (NavigationGroup remToPx st env G className) in
    isSome (g_highlight el) = isSome (g_marker el) /\
    isSome (g_marker el) =
      existsb (fun item => nl_active (li_link item)) (g_items el).
Proof.
  intros remToPx st env G className el. subst el.
  destruct (NavigationGroup_el remToPx st env G className) as (Hitems & Hoff & Hon).
  rewrite Hitems.
  set (p := pathname (fst (seen st env))) in *.
  assert (Hex : existsb (fun item => nl_active (li_link item))
                  (map (linkItem p (snd (seen st env))) (links G)) =
                isActiveGroup G p).
  { rewrite isActiveGroup_existsb. apply existsb_active_items. }
  rewrite Hex.
  destruct (isActiveGroup G p) eqn:A.
  - destruct (Hon eq_refl) as [-> ->]. now split.
  - destruct (Hoff eq_refl) as [-> ->]. now split.
Qed.

(** X7. When a link item carries a sub-section list, the list has one
    entry per section, in the order of the sections: keyed by the
    section's id, linking to the link's [href], a [#] and the id, showing
    the section's title and tag, marked as an anchor link and never as the
    active page. *)
Theorem expansion_lists_every_section :
  forall (remToPx : Q -> Q) (st : GroupState) (env : Env) (G : Group)
         (className : option string) (item : LinkItemEl)
         (subs : list SectionItemEl),
    In item (g_items (fst (NavigationGroup remToPx st env G className))) ->
    li_expansion item = Some subs ->
    map si_key subs = map id (snd (seen st env)) /\
    map (fun s => nl_href (si_link s)) subs =
      map (fun section => li_key item ++ "#" ++ id section) (snd (seen st env)) /\
    map (fun s => nl_children (si_link s)) subs = map stitle (snd (seen st env)) /\
    map (fun s => nl_tag (si_link s)) subs = map tag (snd (seen st env)) /\
    Forall (fun s => nl_isAnchorLink (si_link s) = true /\
                     nl_active (si_link s) = false) subs.
Proof.
  intros remToPx st env G className item subs.
  destruct (NavigationGroup_el remToPx st env G className) as (-> & _ & _).
  rewrite in_map_iff. intros (link & <- & _).
  unfold linkItem; cbn [li_expansion li_key].
  destruct (_ && _); [|discriminate].
  intros [= <-]. rewrite !map_map. cbn.
  repeat split; try reflexivity.
  apply Forall_forall. intros s. rewrite in_map_iff.
  intros (section & <- & _). now split.
Qed.

(** The first link of the scenario group at [/], two sections. *)
Lemma expansion_lists_every_section_witness :
  map si_key
    (map (sectionItem (mkLink "词法环境" "/")) introUsage) = ["intro"; "usage"] /\
  map (fun s => nl_href (si_link s))
    (map (sectionItem (mkLink "词法环境" "/")) introUsage) = ["/#intro"; "/#usage"].
Proof.
  pose proof (expansion_lists_every_section (remToPxAt 16) freshGroup
                (mkEnv (mkRouter "/") introUsage ["intro"] false true)
                scenarioGroup None
                (linkItem "/" introUsage (mkLink "词法环境" "/"))
                (map (sectionItem (mkLink "词法环境" "/")) introUsage)
                (or_introl eq_refl) eq_refl) as (Hk & Hh & _).
  split; [exact Hk | exact Hh].
Defined.

(** ** Counting sub-section lists *)

Lemma filter_hrefIs_count (p : string) (ls : list Link) :
  length (filter (hrefIs p) ls) = count_occ string_dec (map href ls) p.
Proof.
  induction ls as [|l rest IH]; [reflexivity|].
  cbn [filter map]. destruct (hrefIs p l) eqn:E.
  - apply hrefIs_true in E.
    rewrite count_occ_cons_eq by exact E. cbn [length]. now rewrite IH.
  - apply hrefIs_false in E.
    rewrite count_occ_cons_neq by exact E. exact IH.
Qed.

Lemma renderGroups_expansions (remToPx : Q -> Q) (groups : list Group)
    (sts : list GroupState) (env : Env) (i : Z) :
  readsLive sts env ->
  list_sum (map groupExpansions (fst (renderGroups remToPx groups sts env i))) =
  match env_sections env with
  | [] => 0%nat
  | _ :: _ => count_occ string_dec (treeHrefs groups) (pathname (env_router env))
  end.
Proof.
  revert sts i. induction groups as [|G rest IH]; intros sts i Hlive.
  - cbn. now destruct (env_sections env).
  - assert (Hcons : forall a l, list_sum (a :: l) = (a + list_sum l)%nat)
      by reflexivity.
    rewrite renderGroups_cons. cbn [fst map]. rewrite Hcons.
    rewrite groupExpansions_count, (readsLive_hd sts env Hlive). cbn [fst snd].
    rewrite (IH (tl sts) (i + 1) (readsLive_tl sts env Hlive)).
    destruct (env_sections env) as [|s more]; [reflexivity|].
    cbn [treeHrefs flat_map]. rewrite count_occ_app, filter_hrefIs_count.
    reflexivity.
Qed.

Lemma matchesIn_treeHrefs (tree : list Group) (p : string) :
  matchesIn tree p <-> In p (treeHrefs tree).
Proof.
  unfold matchesIn, treeHrefs. rewrite in_flat_map. split.
  - intros (G & l & HG & Hl & E). exists G. split; [exact HG|].
    apply in_map_iff. now exists l.
  - intros (G & HG & Hin). apply in_map_iff in Hin.
    destruct Hin as (l & E & Hl). now exists G, l.
Qed.

(** X8. On a render that reads the live router, the navigation shows as
    many sub-section lists as the tree has links whose [href] is the
    current path when the page has sections, and none when it has no
    section. *)
Theorem expansions_count_matching_links :
  forall (remToPx : Q -> Q) (tree : list Group)
         (sts : list GroupState) (env : Env),
    readsLive sts env ->
    expansions (fst (Navigation remToPx tree sts env)) =
    match env_sections env with
    | [] => 0%nat
    | _ :: _ => count_occ string_dec (treeHrefs tree) (pathname (env_router env))
    end.
Proof.
  intros remToPx tree sts env Hlive. unfold expansions.
  rewrite Navigation_groups. now apply renderGroups_expansions.
Qed.

(** The content tree has five links to [/attachments]. *)
Lemma expansions_count_witness :
  expansions (fst (Navigation (remToPxAt 16) navigation mounted
    (mkEnv (mkRouter "/attachments") introUsage ["intro"] false true))) = 5%nat.
Proof.
  etransitivity.
  - apply (expansions_count_matching_links (remToPxAt 16) navigation mounted
      (mkEnv (mkRouter "/attachments") introUsage ["intro"] false true)).
    left. constructor.
  - reflexivity.
Defined.

Lemma count_occ_filter_kept (keep : string -> bool) (l : list string) (p : string) :
  keep p = true ->
  count_occ string_dec (filter keep l) p = count_occ string_dec l p.
Proof.
  intros Hp. induction l as [|x rest IH]; [reflexivity|].
  cbn [filter]. destruct (string_dec x p) as [-> | N].
  - rewrite Hp, !count_occ_cons_eq by reflexivity. now rewrite IH.
  - rewrite (count_occ_cons_neq string_dec rest N).
    destruct (keep x); [|exact IH].
    now rewrite (count_occ_cons_neq string_dec _ N).
Qed.

(** The [href]s of [navigation] other than the repeated ones occur once. *)
Lemma navigation_hrefs_once (p : string) :
  ~ In p repeatedHrefs ->
  (count_occ string_dec (treeHrefs navigation) p <= 1)%nat.
Proof.
  intros Hp.
  set (keep := fun h => negb (existsb (String.eqb h) repeatedHrefs)).
  assert (Hkeep : keep p = true).
  { unfold keep. apply negb_true_iff.
    destruct (existsb (String.eqb p) repeatedHrefs) eqn:E; [|reflexivity].
    apply existsb_exists in E. destruct E as (h & Hh & Eh).
    apply String.eqb_eq in Eh. subst h. contradiction. }
  rewrite <- (count_occ_filter_kept keep (treeHrefs navigation) p Hkeep).
  apply NoDup_count_occ. apply distinctb_NoDup. reflexivity.
Qed.

(** X9. In the content tree as it is shipped, at every path other than
    the five repeated [href]s, a render that reads the live router shows
    at most one sub-section list; it shows exactly one when, and only
    when, the path is the [href] of a link and the page has a section. *)
Theorem navigation_single_expansion_off_repeated_hrefs :
  forall (remToPx : Q -> Q) (sts : list GroupState) (env : Env),
    readsLive sts env ->
    ~ In (pathname (env_router env)) repeatedHrefs ->
    (expansions (fst (Navigation remToPx navigation sts env)) <= 1)%nat /\
    (expansions (fst (Navigation remToPx navigation sts env)) = 1%nat <->
     matchesIn navigation (pathname (env_router env)) /\ env_sections env <> []).
Proof.
  intros remToPx sts env Hlive Hp.
  rewrite (expansions_count_matching_links remToPx navigation sts env Hlive).
  pose proof (navigation_hrefs_once (pathname (env_router env)) Hp) as Hle.
  pose proof (count_occ_In string_dec (treeHrefs navigation)
                (pathname (env_router env))) as Hin.
  rewrite matchesIn_treeHrefs.
  destruct (env_sections env) as [|s more].
  - split; [lia|]. split; [discriminate | intros [_ H]; congruence].
  - split; [exact Hle|]. split.
    + intros E. split; [apply Hin; lia | discriminate].
    + intros [H _]. apply Hin in H. lia.
Qed.

(** At [/sdks], with two sections on the page, the shipped tree shows one
    sub-section list. *)
Lemma navigation_single_expansion_witness :
  (expansions (fst (Navigation (remToPxAt 16) navigation mounted
     (introUsageVisible "/sdks"))) <= 1)%nat /\
  expansions (fst (Navigation (remToPxAt 16) navigation mounted
     (introUsageVisible "/sdks"))) = 1%nat.
Proof.
  assert (Hlive : readsLive mounted (introUsageVisible "/sdks"))
    by (left; constructor).
  assert (Hp : ~ In (pathname (env_router (introUsageVisible "/sdks"))) repeatedHrefs).
  { cbn. intros [H | [H | [H | [H | [H | []]]]]]; discriminate H. }
  pose proof (navigation_single_expansion_off_repeated_hrefs (remToPxAt 16)
                mounted (introUsageVisible "/sdks") Hlive Hp) as [Hle Hiff].
  split; [exact Hle|]. apply Hiff. split; [|discriminate].
  apply matchesIn_treeHrefs. cbn. tauto.
Defined.

(** ** The whole navigation *)

Lemma NavigationGroup_title_class (remToPx : Q -> Q) (st : GroupState)
    (env : Env) (G : Group) (className : option string) :
  g_title (fst (NavigationGroup remToPx st env G className)) = gtitle G /\
  g_className (fst (NavigationGroup remToPx st env G className)) = className.
Proof.
  unfold NavigationGroup.
  destruct (useInitialValue _ _ _) as [[router sections] nav'].
  destruct (if isActiveGroup G (pathname router) then _ else _) as [h b].
  now split.
Qed.

Lemma renderGroups_shape (remToPx : Q -> Q) (groups : list Group)
    (sts : list GroupState) (env : Env) (i : Z) :
  0 < i ->
  map g_title (fst (renderGroups remToPx groups sts env i)) = map gtitle groups /\
  map g_className (fst (renderGroups remToPx groups sts env i)) =
    map (fun _ => None) groups.
Proof.
  revert sts i. induction groups as [|G rest IH]; intros sts i Hi.
  - now split.
  - rewrite renderGroups_cons. cbn [fst map].
    destruct (IH (tl sts) (i + 1) ltac:(lia)) as [-> ->].
    destruct (NavigationGroup_title_class remToPx (hd freshGroup sts) env G
                (if i =? 0 then Some "md:mt-0" else None)) as [-> ->].
    destruct (Z.eqb_spec i 0); [lia | now split].
Qed.

(** X10. The navigation renders one group element per group of the tree,
    in the order of the tree, each under its group's title and with one
    item per link in the order of the links; only the first group gets the
    class [md:mt-0]. *)
Theorem Navigation_renders_groups_in_order :
  forall (remToPx : Q -> Q) (tree : list Group)
         (sts : list GroupState) (env : Env),
    let el := fst (Navigation remToPx tree sts env) in
    map g_title (n_groups el) = map gtitle tree /\
    map (fun g => map li_key (g_items g)) (n_groups el) =
      map (fun G => map href (links G)) tree /\
    map (fun g => map (fun item => nl_children (li_link item)) (g_items g))
        (n_groups el) =
      map (fun G => map (fun l => Some (title l)) (links G)) tree /\
    map g_className (n_groups el) =
      match tree with
      | [] => []
      | _ :: rest => Some "md:mt-0" :: map (fun _ => None) rest
      end.
Proof.
  intros remToPx tree sts env el. subst el. rewrite Navigation_groups.
  assert (Hitems : forall groups sts i,
            map (fun g => map li_key (g_items g))
                (fst (renderGroups remToPx groups sts env i)) =
              map (fun G => map href (links G)) groups /\
            map (fun g => map (fun item => nl_children (li_link item)) (g_items g))
                (fst (renderGroups remToPx groups sts env i)) =
              map (fun G => map (fun l => Some (title l)) (links G)) groups).
  { induction groups as [|G rest IH]; intros sts' i; [now split|].
    rewrite renderGroups_cons. cbn [fst map].
    destruct (IH (tl sts') (i + 1)) as [-> ->].
    destruct (NavigationGroup_el remToPx (hd freshGroup sts') env G
                (if i =? 0 then Some "md:mt-0" else None)) as (-> & _ & _).
    rewrite !map_map. cbn [linkItem li_key li_link nl_children]. now split. }
  destruct (Hitems tree sts 0) as [Hk Hc].
  repeat split; try assumption.
  - destruct tree as [|G rest]; [reflexivity|].
    rewrite renderGroups_cons. cbn [fst map].
    rewrite (proj1 (NavigationGroup_title_class remToPx _ env G _)).
    now rewrite (proj1 (renderGroups_shape remToPx rest (tl sts) env (0 + 1) ltac:(lia))).
  - destruct tree as [|G rest]; [reflexivity|].
    rewrite renderGroups_cons. cbn [fst map].
    rewrite (proj2 (NavigationGroup_title_class remToPx _ env G _)).
    now rewrite (proj2 (renderGroups_shape remToPx rest (tl sts) env (0 + 1) ltac:(lia))).
Qed.

(** After every render the hook state has one entry per group of the
    tree; each group's ref is set, and the ref of its highlight child is
    set exactly when the group was rendered with a highlight band. *)
Lemma Navigation_state_after_render :
  forall (remToPx : Q -> Q) (tree : list Group)
         (sts : list GroupState) (env : Env),
    length (snd (Navigation remToPx tree sts env)) = length tree /\
    length (n_groups (fst (Navigation remToPx tree sts env))) = length tree /\
    Forall2 (fun g st => isSome (navSlot st) = true /\
                         isSome (bandSlot st) = isSome (g_highlight g))
      (n_groups (fst (Navigation remToPx tree sts env)))
      (snd (Navigation remToPx tree sts env)).
Proof.
  intros remToPx tree sts env.
  assert (Hsnd : snd (Navigation remToPx tree sts env) =
                 snd (renderGroups remToPx tree sts env 0)).
  { unfold Navigation.
    now destruct (renderGroups remToPx tree sts env 0). }
  rewrite Hsnd, Navigation_groups. clear Hsnd. generalize 0 as i. revert sts.
  induction tree as [|G rest IH]; intros sts i.
  - cbn. repeat split; constructor.
  - rewrite renderGroups_cons. cbn [fst snd length].
    destruct (IH (tl sts) (i + 1)) as (-> & -> & HF).
    repeat split. constructor; [|exact HF].
    unfold NavigationGroup, VisibleSectionHighlight, useInitialValue, useRef.
    destruct (navSlot (hd freshGroup sts)) as [[r s]|];
      destruct (bandSlot (hd freshGroup sts)) as [[s' v']|];
      destruct (env_isInsideMobileNavigation env); cbn;
      match goal with
      | |- context [isActiveGroup ?G ?p] => destruct (isActiveGroup G p)
      end; cbn; now split.
Qed.
